(** * Tic-Tac-Toe widget: rules engine, opponent strategy, session controller

    Shallow embedding of [src/components/TicTacToe.tsx].  The React component
    keeps one [GameState] value and replaces it in response to discrete
    events.  A handler that updates the state with [prev => ...] alone is a
    function of the current state; the click handler also reads the state of
    the render it was created in, and is a function of both (together with
    the notifications it emits).

    JavaScript values are modelled as follows.
    - [Player = 'X' | 'O' | null] is [option Mark], with [None] for [null].
    - An array read [board[i]] is [board !! i : option Player]; the outer
      [None] is [undefined] (index outside the array).
    - [v !== null] on an array read is therefore [v ≠ Some None]: it is true
      for a mark and also for [undefined].
    - [Math.random()] is a rational in the half-open unit interval. *)

From Stdlib Require Import ZArith QArith Qround Lia String Sorted.
From stdpp Require Import base decidable option list.

#[local] Open Scope nat_scope.

Module TicTacToe.

(** ** Data model (source lines 8-19) *)

Inductive Mark : Set := X | O.

#[global] Instance Mark_eq_dec : EqDecision Mark.
Proof. solve_decision. Defined.

(** [type Player = 'X' | 'O' | null] *)
Abbreviation Player := (option Mark).

(** [Player[]] *)
Abbreviation Board := (list Player).

Inductive GameMode : Set := player | computer.
Inductive GameStatus : Set := playing | won | draw.

#[global] Instance GameMode_eq_dec : EqDecision GameMode.
Proof. solve_decision. Defined.
#[global] Instance GameStatus_eq_dec : EqDecision GameStatus.
Proof. solve_decision. Defined.

(** [score: { x: number; o: number; draws: number }].  The counters only
    ever hold small non-negative integers, taken here as unbounded naturals. *)
Record Score : Set := mkScore { x : nat; o : nat; draws : nat }.

Record GameState : Set := mkGameState {
  board : Board;
  currentPlayer : Player;
  gameStatus : GameStatus;
  winner : Player;
  gameMode : GameMode;
  score : Score
}.

(** [Array(9).fill(null)] *)
Definition emptyBoard : Board := replicate 9 None.

(** The argument of [useState] (lines 24-31). *)
Definition initialGameState : GameState :=
  {| board := emptyBoard;
     currentPlayer := Some X;
     gameStatus := playing;
     winner := None;
     gameMode := player;
     score := mkScore 0 0 0 |}.

(** [array[index]] for an integral JavaScript number: [undefined] ([None])
    below zero and past the end. *)
Definition item {A : Type} (array : list A) (index : Z) : option A :=
  if decide (0 ≤ index)%Z then array !! Z.to_nat index else None.

(** ** Rules engine (lines 33-60) *)

(** Each combination is a three-element array literal, destructured as
    [[a, b, c]] wherever it is used. *)
Definition winningCombinations : list (nat * nat * nat) :=
  [ (0, 1, 2); (3, 4, 5); (6, 7, 8);   (* Rows *)
    (0, 3, 6); (1, 4, 7); (2, 5, 8);   (* Columns *)
    (0, 4, 8); (2, 4, 6) ].            (* Diagonals *)

(** JavaScript truthiness of an array read: the strings ['X'] and ['O'] are
    truthy, [null] and [undefined] are not. *)
Definition truthy (v : option Player) : bool :=
  match v with
  | Some (Some _) => true
  | _ => false
  end.

(** The [for ... of] loop of [checkWinner], over the combinations that are
    still to be visited. *)
Fixpoint checkWinner_from (combinations : list (nat * nat * nat))
    (board : Board) : Player :=
  match combinations with
  | [] => None
  | (a, b, c) :: rest =>
      if truthy (board !! a)
         && bool_decide (board !! a = board !! b)
         && bool_decide (board !! a = board !! c)
      then mjoin (board !! a)
      else checkWinner_from rest board
  end.

Definition checkWinner (board : Board) : Player :=
  checkWinner_from winningCombinations board.

(** [board.every(cell => cell !== null)] *)
Definition isBoardFull (board : Board) : bool :=
  forallb (λ cell : Player, bool_decide (cell ≠ None)) board.

(** [board.map((cell, index) => cell === null ? index : null)
         .filter(index => index !== null) as number[]]:
    the mapped array holds an index or [null] per cell, the filter drops the
    [null]s, and the cast reads what is left as numbers. *)
Definition getAvailableMoves (board : Board) : list nat :=
  let mapped : list (option nat) :=
    imap (λ index (cell : Player),
            if decide (cell = None) then Some index else None) board in
  let filtered := filter (λ index : option nat, index ≠ None) mapped in
  omap id filtered.


(** ** Opponent strategy (lines 62-93) *)

(** [value === m] for a mark literal, and [value === null]. *)
Definition is_mark (m : Mark) (value : option Player) : bool :=
  bool_decide (value = Some (Some m)).
Definition is_null (value : option Player) : bool :=
  bool_decide (value = Some None).

(** The loop of tier 1 (lines 65-70, [m = O]) and of tier 2 (lines 73-78,
    [m = X]); the two loops differ in the mark literal only.  [None] means
    that the loop ended without a [return]. *)
Fixpoint completing_from (combinations : list (nat * nat * nat))
    (m : Mark) (board : Board) : option nat :=
  match combinations with
  | [] => None
  | (a, b, c) :: rest =>
      if is_mark m (board !! a) && is_mark m (board !! b)
         && is_null (board !! c) then Some c
      else if is_mark m (board !! a) && is_mark m (board !! c)
              && is_null (board !! b) then Some b
      else if is_mark m (board !! b) && is_mark m (board !! c)
              && is_null (board !! a) then Some a
      else completing_from rest m board
  end.

(** Tier 1, "try to win", and tier 2, "block player from winning". *)
Definition tryToWin (board : Board) : option nat :=
  completing_from winningCombinations O board.
Definition blockPlayer (board : Board) : option nat :=
  completing_from winningCombinations X board.

(** [Math.floor(random * length)], with the product taken exactly. *)
Definition randomIndex (random : Q) (length : nat) : Z :=
  Qfloor (random * inject_Z (Z.of_nat length)).

Definition corners : list nat := [0; 2; 6; 8].

(** [getComputerMove(board)].  At most one call of [Math.random()] is
    evaluated per invocation; [random] is the value it returns.  The result
    is a number, or [undefined] ([None]) when the last tier indexes an empty
    array. *)
Definition getComputerMove (board : Board) (random : Q) : option nat :=
  match tryToWin board with
  | Some move => Some move
  | None =>
  match blockPlayer board with
  | Some move => Some move
  | None =>
      if is_null (board !! 4) then Some 4
      else
        let availableCorners :=
          filter (λ corner, board !! corner = Some None) corners in
        if bool_decide (0 < length availableCorners)
        then item availableCorners
               (randomIndex random (length availableCorners))
        else
          let availableMoves := getAvailableMoves board in
          item availableMoves (randomIndex random (length availableMoves))
  end
  end.

(** ** Session controller (lines 95-181) *)

(** What is passed to the notification collaborator. *)
Record Toast : Set := mkToast { title : string; description : string }.

Definition markName (m : Mark) : string :=
  match m with X => "X" | O => "O" end.

Definition wonToast (w : Mark) : Toast :=
  {| title := "🎉 Game Won!";
     description := "Player " ++ markName w ++ " wins!" |}.

Definition drawToast : Toast :=
  {| title := "🤝 It's a Draw!";
     description := "Good game! Try again." |}.

(** The guard of line 97:
    [gameState.board[index] !== null || gameState.gameStatus !== 'playing']. *)
Definition rejected (gameState : GameState) (index : Z) : bool :=
  bool_decide (item (board gameState) index ≠ Some None)
  || bool_decide (gameStatus gameState ≠ playing).

(** [handleCellClick(index)] as created in the render of [gameState], with
    its state update applied to the state [prev] that is current when it
    runs.  The guard, the new board, the winner, the new status, the new
    score and the next turn are all computed from the [gameState] the
    function closes over (lines 97-125 and 130); only what the spread
    [...prev] leaves in place, the game mode, comes from [prev] (lines
    127-134).  When the guard returns early no update is made and [prev]
    stays.  The result is the next state and the toasts emitted.  Past the
    guard the index is within the array, so the assignment to
    [newBoard[index]] overwrites an existing cell. *)
Definition handleCellClickOn (gameState : GameState) (index : Z)
    (prev : GameState) : GameState * list Toast :=
  if rejected gameState index then (prev, [])
  else
    let newBoard : Board :=
      <[Z.to_nat index := currentPlayer gameState]> (board gameState) in
    let winner := checkWinner newBoard in
    let oldScore := score gameState in
    let '(newGameStatus, newScore, toasts) :=
      match winner with
      | Some w =>
          (won,
           if decide (w = X)
           then {| x := x oldScore + 1; o := o oldScore;
                   draws := draws oldScore |}
           else {| x := x oldScore; o := o oldScore + 1;
                   draws := draws oldScore |},
           [wonToast w])
      | None =>
          if isBoardFull newBoard
          then (draw,
                {| x := x oldScore; o := o oldScore;
                   draws := draws oldScore + 1 |},
                [drawToast])
          else (playing, oldScore, [])
      end in
    ({| board := newBoard;
        currentPlayer :=
          if decide (currentPlayer gameState = Some X) then Some O
          else Some X;
        gameStatus := newGameStatus;
        winner := winner;
        gameMode := gameMode prev;
        score := newScore |},
     toasts).

(** [handleCellClick(index)] called from the render of the current state,
    so that [prev] is the [gameState] it closes over.  This is every click
    from the view, which always carries the handler of the latest render,
    and the timer callback of the computer's turn as long as no score reset
    came between the effect and the timer (see [effectDeps]). *)
Definition handleCellClick (gameState : GameState) (index : Z)
    : GameState * list Toast :=
  handleCellClickOn gameState index gameState.

(** [resetGame()] *)
Definition resetGame (prev : GameState) : GameState :=
  {| board := emptyBoard;
     currentPlayer := Some X;
     gameStatus := playing;
     winner := None;
     gameMode := gameMode prev;
     score := score prev |}.

(** [resetScore()] *)
Definition resetScore (prev : GameState) : GameState :=
  {| board := board prev;
     currentPlayer := currentPlayer prev;
     gameStatus := gameStatus prev;
     winner := winner prev;
     gameMode := gameMode prev;
     score := {| x := 0; o := 0; draws := 0 |} |}.

(** [setGameMode(mode)] *)
Definition setGameMode (mode : GameMode) (prev : GameState) : GameState :=
  {| board := emptyBoard;
     currentPlayer := Some X;
     gameStatus := playing;
     winner := None;
     gameMode := mode;
     score := score prev |}.

(** The events the view sends to the controller. *)
Inductive Event : Set :=
  | CellClick (index : Z)
  | NewGame
  | ResetScore
  | ChooseMode (mode : GameMode).

Definition dispatch (gameState : GameState) (e : Event) : GameState :=
  match e with
  | CellClick index => (handleCellClick gameState index).1
  | NewGame => resetGame gameState
  | ResetScore => resetScore gameState
  | ChooseMode mode => setGameMode mode gameState
  end.

(** A run of cell clicks, and the state it leads to. *)
Definition clicks (gameState : GameState) (indices : list Z) : GameState :=
  foldl (λ gs index, (handleCellClick gs index).1) gameState indices.

(** The cell contents written by the accepted clicks of a run, in order:
    for each click that passes the guard, what the next board holds at the
    clicked index. *)
Fixpoint marksPlaced (gameState : GameState) (indices : list Z)
    : list (option Player) :=
  match indices with
  | [] => []
  | index :: rest =>
      let next := (handleCellClick gameState index).1 in
      if rejected gameState index then marksPlaced next rest
      else item (board next) index :: marksPlaced next rest
  end.

(** ** Specification vocabulary *)

(** Mark [m] occupies the three cells of the combination. *)
Definition owns (board : Board) (m : Mark) (t : nat * nat * nat) : Prop :=
  let '(a, b, c) := t in
  board !! a = Some (Some m) ∧ board !! b = Some (Some m)
  ∧ board !! c = Some (Some m).

#[global] Instance owns_dec board m t : Decision (owns board m t).
Proof. destruct t as [[a b] c]; simpl; apply _. Defined.

(** The lines of the 3x3 grid in row-major numbering. *)
Inductive line : nat * nat * nat → Prop :=
  | line_row r : r < 3 → line (3 * r, 3 * r + 1, 3 * r + 2)
  | line_col c : c < 3 → line (c, c + 3, c + 6)
  | line_diag : line (0, 4, 8)
  | line_anti : line (2, 4, 6).

(** Cell [i] is the empty cell of the combination whose two other cells
    hold [m]. *)
Definition cells (t : nat * nat * nat) : list nat :=
  let '(a, b, c) := t in [a; b; c].

Definition completable (board : Board) (m : Mark) (t : nat * nat * nat)
    (i : nat) : Prop :=
  i ∈ cells t ∧ board !! i = Some None
  ∧ ∀ j, j ∈ cells t → j ≠ i → board !! j = Some (Some m).

(** The other mark. *)
Definition opponent (m : Mark) : Mark :=
  match m with X => O | O => X end.


(** The random source returns a number in the half-open unit interval. *)
Definition unitInterval (random : Q) : Prop :=
  (0 <= random)%Q ∧ (random < 1)%Q.

(** The score after one more win of [w], and after one more draw. *)
Definition addWin (w : Mark) (s : Score) : Score :=
  match w with
  | X => {| x := x s + 1; o := o s; draws := draws s |}
  | O => {| x := x s; o := o s + 1; draws := draws s |}
  end.

Definition addDraw (s : Score) : Score :=
  {| x := x s; o := o s; draws := draws s + 1 |}.

(** What every state of a session satisfies: nine cells, and a mark to
    move. *)
Definition wellFormed (gameState : GameState) : Prop :=
  length (board gameState) = 9 ∧ is_Some (currentPlayer gameState).

(** The session after the clicks 0, 3, 1, 4 on a fresh board: X holds cells
    0 and 1, O holds cells 3 and 4, and X is to move. *)
Definition topRowOpen : GameState :=
  {| board := [Some X; Some X; None; Some O; Some O; None; None; None; None];
     currentPlayer := Some X;
     gameStatus := playing;
     winner := None;
     gameMode := player;
     score := mkScore 0 0 0 |}.

(** A session in computer mode in which X won an earlier game and has just
    opened a new one on cell 0: O is to move and the score is 1, 0, 0. *)
Definition scoredSession : GameState :=
  {| board := [Some X; None; None; None; None; None; None; None; None];
     currentPlayer := Some O;
     gameStatus := playing;
     winner := None;
     gameMode := computer;
     score := mkScore 1 0 0 |}.

(** The move list of the specification's "draw" scenario. *)
Definition scenarioMoves : list Z := [0; 1; 2; 4; 3; 5; 6; 8; 7]%Z.

(** ** The computer's turn and the board grid (lines 137-150, 253-267) *)

(** The condition under which the effect of lines 138-150 sets its timer. *)
Definition computerToMove (gameState : GameState) : bool :=
  bool_decide (gameMode gameState = computer)
  && bool_decide (currentPlayer gameState = Some O)
  && bool_decide (gameStatus gameState = playing).

(** The effect of lines 138-150, for a timer that fires while the state is
    still the [gameState] the effect ran in: [None] when no timer is set,
    otherwise what the callback
    [handleCellClick(getComputerMove(gameState.board))] leaves.  When
    [getComputerMove] returns [undefined], [gameState.board[undefined]] is
    [undefined], which is [!== null], and the click returns at its guard. *)
Definition computerMoveTimer (gameState : GameState) (random : Q)
    : option (GameState * list Toast) :=
  if computerToMove gameState
  then Some match getComputerMove (board gameState) random with
            | Some computerMove =>
                handleCellClick gameState (Z.of_nat computerMove)
            | None => (gameState, [])
            end
  else None.

(** The dependency array of the effect (line 150).  The effect is cleaned
    up (its timer cleared) and run again only when one of these changes; a
    state change that leaves them alone, as a score reset does, leaves a
    pending timer and the closure of its callback in place. *)
Definition effectDeps (gameState : GameState)
    : Player * GameMode * GameStatus :=
  (currentPlayer gameState, gameMode gameState, gameStatus gameState).

(** The timer callback of lines 143-146, created by the effect in the
    render of [gameState] and fired when the current state is [prev]:
    [handleCellClick(getComputerMove(gameState.board))], both taken from
    that render. *)
Definition computerMoveCallback (gameState : GameState) (random : Q)
    (prev : GameState) : GameState * list Toast :=
  match getComputerMove (board gameState) random with
  | Some computerMove =>
      handleCellClickOn gameState (Z.of_nat computerMove) prev
  | None => (prev, [])
  end.

(** One [Button] of the board grid (lines 253-267): the index its [onClick]
    passes to [handleCellClick], its [disabled] flag and the cell it shows. *)
Record CellButton : Set := mkCellButton {
  clickIndex : Z;
  disabled : bool;
  shown : Player
}.

(** [gameState.board.map((cell, index) => <Button ... />)] *)
Definition boardButtons (gameState : GameState) : list CellButton :=
  imap (λ index (cell : Player),
          {| clickIndex := Z.of_nat index;
             disabled := bool_decide (cell ≠ None)
                         || bool_decide (gameStatus gameState ≠ playing);
             shown := cell |})
       (board gameState).

(** ** Further specification vocabulary *)

(** The number of cells of the board that hold [value]. *)
Definition countCells (value : Player) (board : Board) : nat :=
  length (filter (λ cell : Player, cell = value) board).

(** Status, winner and board agree: a session is in progress on a board with
    no winner and an empty cell, won with the winner the rules engine finds
    on the board, and drawn on a full board with no winner. *)
Definition statusCoherent (gameState : GameState) : Prop :=
  match gameStatus gameState with
  | playing =>
      checkWinner (board gameState) = None
      ∧ isBoardFull (board gameState) = false ∧ winner gameState = None
  | won =>
      is_Some (winner gameState)
      ∧ checkWinner (board gameState) = winner gameState
  | draw =>
      checkWinner (board gameState) = None
      ∧ isBoardFull (board gameState) = true ∧ winner gameState = None
  end.

(** The marks on the board are those of alternating play that X opened: as
    many X as O when X is to move, one X more when O is to move. *)
Definition balanced (gameState : GameState) : Prop :=
  (currentPlayer gameState = Some X
   ∧ countCells (Some X) (board gameState)
     = countCells (Some O) (board gameState))
  ∨ (currentPlayer gameState = Some O
     ∧ countCells (Some X) (board gameState)
       = countCells (Some O) (board gameState) + 1).

(** The board with the two marks exchanged. *)
Definition swapMarks (board : Board) : Board :=
  fmap (M := option) opponent <$> board.

(** The sum of the three counters: the number of games counted. *)
Definition gamesCounted (s : Score) : nat := x s + o s + draws s.

(** ** Rules engine: lemmas *)

Lemma winningCombinations_lines t :
  t ∈ winningCombinations ↔ line t.
Proof.
  split.
  - unfold winningCombinations. intros H.
    repeat (apply elem_of_cons in H as [-> | H]);
      [apply (line_row 0); lia | apply (line_row 1); lia
      |apply (line_row 2); lia | apply (line_col 0); lia
      |apply (line_col 1); lia | apply (line_col 2); lia
      |apply line_diag | apply line_anti | by apply elem_of_nil in H].
  - intros [r Hr|c Hc| |].
    + assert (r = 0 ∨ r = 1 ∨ r = 2) as [-> | [-> | ->]] by lia;
        simpl; repeat constructor.
    + assert (c = 0 ∨ c = 1 ∨ c = 2) as [-> | [-> | ->]] by lia;
        simpl; repeat constructor.
    + repeat constructor.
    + repeat constructor.
Qed.

(** The test of line 44 succeeds exactly on a combination owned by one
    mark, and the value returned is that mark. *)
Lemma matched_owns (board : Board) a b c :
  truthy (board !! a) && bool_decide (board !! a = board !! b)
    && bool_decide (board !! a = board !! c) = true
  → ∃ m, mjoin (board !! a) = Some m ∧ owns board m (a, b, c).
Proof.
  rewrite !andb_true_iff, !bool_decide_eq_true.
  intros [[Ht Hb] Hc].
  destruct (board !! a) as [[m|]|] eqn:Ha; try discriminate Ht.
  exists m. simpl. by rewrite <- Hb, <- Hc.
Qed.

Lemma unmatched_not_owned (board : Board) a b c m :
  truthy (board !! a) && bool_decide (board !! a = board !! b)
    && bool_decide (board !! a = board !! c) = false
  → ¬ owns board m (a, b, c).
Proof.
  intros Htest (Ha & Hb & Hc).
  apply not_true_iff_false in Htest. apply Htest.
  rewrite !andb_true_iff, !bool_decide_eq_true, Ha, Hb, Hc. done.
Qed.

Lemma owns_functional (board : Board) m m' t :
  owns board m t → owns board m' t → m = m'.
Proof.
  destruct t as [[a b] c]. intros (Ha & _) (Ha' & _). congruence.
Qed.

Lemma checkWinner_from_Some combinations (board : Board) m :
  checkWinner_from combinations board = Some m ↔
  ∃ before t after,
    combinations = before ++ t :: after ∧ owns board m t
    ∧ ∀ t' m', t' ∈ before → ¬ owns board m' t'.
Proof.
  induction combinations as [|[[a b] c] rest IH]; simpl.
  - split; [discriminate|].
    intros (before & t & after & Heq & _). by destruct before.
  - destruct (truthy (board !! a) && bool_decide (board !! a = board !! b)
              && bool_decide (board !! a = board !! c)) eqn:Htest.
    + apply matched_owns in Htest as (w & Hw & Hown). rewrite Hw. split.
      * intros [= <-]. exists [], (a, b, c), rest.
        split_and!; [done|done|]. intros t' m' Hin. by apply elem_of_nil in Hin.
      * intros (before & t & after & Heq & Hm & Hnone).
        destruct before as [|t0 before]; simplify_eq/=.
        -- destruct Hown as [Ha1 _], Hm as [Ha2 _]. congruence.
        -- exfalso. eapply Hnone; [left|]. exact Hown.
    + rewrite IH. split.
      * intros (before & t & after & -> & Hm & Hnone).
        exists ((a, b, c) :: before), t, after. split_and!; [done|done|].
        intros t' m' [-> | Hin]%elem_of_cons; [|by eapply Hnone].
        by eapply unmatched_not_owned.
      * intros (before & t & after & Heq & Hm & Hnone).
        destruct before as [|t0 before]; simplify_eq/=.
        -- exfalso. by eapply unmatched_not_owned.
        -- exists before, t, after. split_and!; [done|done|].
           intros t' m' Hin. apply Hnone. by right.
Qed.

Lemma checkWinner_from_None combinations (board : Board) :
  checkWinner_from combinations board = None ↔
  ∀ t m, t ∈ combinations → ¬ owns board m t.
Proof.
  induction combinations as [|[[a b] c] rest IH]; simpl.
  - split; [|done]. intros _ t m Hin. by apply elem_of_nil in Hin.
  - destruct (truthy (board !! a) && bool_decide (board !! a = board !! b)
              && bool_decide (board !! a = board !! c)) eqn:Htest.
    + apply matched_owns in Htest as (w & Hw & Hown). rewrite Hw.
      split; [discriminate|]. intros Hnone. exfalso.
      eapply Hnone; [left|]. exact Hown.
    + rewrite IH. split.
      * intros Hrest t m [-> | Hin]%elem_of_cons; [|by apply Hrest].
        by eapply unmatched_not_owned.
      * intros Hall t m Hin. apply Hall. by right.
Qed.

Lemma checkWinner_None_lines (board : Board) :
  checkWinner board = None ↔ ∀ t m, line t → ¬ owns board m t.
Proof.
  unfold checkWinner. rewrite checkWinner_from_None.
  split; intros H t m Ht; apply H; by apply winningCombinations_lines.
Qed.

Lemma checkWinner_Some_line (board : Board) w :
  checkWinner board = Some w → ∃ t, line t ∧ owns board w t.
Proof.
  intros (before & t & after & Heq & Hown & _)%checkWinner_from_Some.
  exists t. split; [|done]. apply winningCombinations_lines.
  rewrite Heq. apply elem_of_app. right. by left.
Qed.

Lemma checkWinner_is_Some_lines (board : Board) :
  (∃ w, checkWinner board = Some w) ↔ ∃ m t, line t ∧ owns board m t.
Proof.
  split.
  - intros [w Hw]. exists w. by apply checkWinner_Some_line.
  - intros (m & t & Ht & Hown).
    destruct (checkWinner board) as [w|] eqn:Hw; [by exists w|].
    exfalso. by eapply checkWinner_None_lines.
Qed.

(** C2. For every board, [checkWinner] (the spec's findWinner) scans the
    eight rows, columns and diagonals in their fixed order and returns the
    mark of the first combination whose three cells hold one mark; it
    returns a mark exactly when some line of the grid is held by one mark,
    returns [null] exactly when no line is, and returns [null] on the empty
    board. *)
Theorem checkWinner_spec (board : Board) :
  (∀ m, checkWinner board = Some m ↔
        ∃ before t after,
          winningCombinations = before ++ t :: after ∧ owns board m t
          ∧ ∀ t' m', t' ∈ before → ¬ owns board m' t')
  ∧ ((∃ m, checkWinner board = Some m) ↔ ∃ m t, line t ∧ owns board m t)
  ∧ (checkWinner board = None ↔ ∀ t m, line t → ¬ owns board m t)
  ∧ checkWinner emptyBoard = None.
Proof.
  split_and!.
  - intros m. apply checkWinner_from_Some.
  - apply checkWinner_is_Some_lines.
  - apply checkWinner_None_lines.
  - reflexivity.
Qed.

Lemma elem_of_getAvailableMoves (board : Board) i :
  i ∈ getAvailableMoves board ↔ board !! i = Some None.
Proof.
  unfold getAvailableMoves. rewrite list_elem_of_omap. split.
  - intros (oi & Hin & Hid). simpl in Hid. subst oi.
    apply list_elem_of_filter in Hin as [_ Hin].
    apply elem_of_lookup_imap in Hin as (j & cell & Heq & Hj).
    destruct (decide (cell = None)); by simplify_eq.
  - intros Hi. exists (Some i). split; [|done].
    apply list_elem_of_filter. split; [done|].
    apply elem_of_lookup_imap. exists i, None. split; [|done].
    by rewrite decide_True.
Qed.

Lemma isBoardFull_true (board : Board) :
  isBoardFull board = true ↔ ∀ i, board !! i ≠ Some None.
Proof.
  unfold isBoardFull.
  rewrite <- Is_true_true, forallb_True, Forall_lookup. split.
  - intros H i Hi. specialize (H i None Hi).
    by apply bool_decide_unpack in H.
  - intros H i cell Hi. apply bool_decide_pack. intros ->. by apply (H i).
Qed.

Lemma getAvailableMoves_nil (board : Board) :
  getAvailableMoves board = [] ↔ ∀ i, board !! i ≠ Some None.
Proof.
  split.
  - intros Hnil i Hi. apply elem_of_getAvailableMoves in Hi.
    rewrite Hnil in Hi. by apply elem_of_nil in Hi.
  - intros Hfull. destruct (getAvailableMoves board) as [|i moves] eqn:Heq;
      [done|]. exfalso. apply (Hfull i), elem_of_getAvailableMoves.
    rewrite Heq. by left.
Qed.

(** C8. For every board, [isBoardFull] (the spec's isFull) returns true if
    and only if [getAvailableMoves] (the spec's emptyCells) returns the empty
    sequence, and if and only if no cell of the board is empty. *)
Theorem isBoardFull_iff_no_available_moves (board : Board) :
  (isBoardFull board = true ↔ getAvailableMoves board = [])
  ∧ (isBoardFull board = true ↔ ∀ i, board !! i ≠ Some None).
Proof.
  split; [|apply isBoardFull_true].
  by rewrite isBoardFull_true, getAvailableMoves_nil.
Qed.

(** ** Opponent strategy: lemmas *)

Ltac unfold_tests :=
  unfold is_mark, is_null in *;
  rewrite ?andb_true_iff, ?andb_false_iff, ?bool_decide_eq_true,
    ?bool_decide_eq_false in *.

Lemma winningCombinations_NoDup t :
  t ∈ winningCombinations → NoDup (cells t).
Proof.
  intros [r Hr|c Hc| |]%winningCombinations_lines; simpl;
    repeat (apply NoDup_cons; split;
            [rewrite ?elem_of_cons, elem_of_nil; lia|]);
    apply NoDup_nil_2.
Qed.

Lemma completable_third (board : Board) m a b c :
  board !! a = Some (Some m) → board !! b = Some (Some m)
  → board !! c = Some None → completable board m (a, b, c) c.
Proof.
  intros Ha Hb Hc. split_and!; [simpl; repeat constructor|done|].
  intros j Hj Hne. simpl in Hj.
  repeat (apply elem_of_cons in Hj as [-> | Hj]); try done.
  by apply elem_of_nil in Hj.
Qed.

Lemma completable_second (board : Board) m a b c :
  board !! a = Some (Some m) → board !! c = Some (Some m)
  → board !! b = Some None → completable board m (a, b, c) b.
Proof.
  intros Ha Hc Hb. split_and!; [simpl; repeat constructor|done|].
  intros j Hj Hne. simpl in Hj.
  repeat (apply elem_of_cons in Hj as [-> | Hj]); try done.
  by apply elem_of_nil in Hj.
Qed.

Lemma completable_first (board : Board) m a b c :
  board !! b = Some (Some m) → board !! c = Some (Some m)
  → board !! a = Some None → completable board m (a, b, c) a.
Proof.
  intros Hb Hc Ha. split_and!; [simpl; repeat constructor|done|].
  intros j Hj Hne. simpl in Hj.
  repeat (apply elem_of_cons in Hj as [-> | Hj]); try done.
  by apply elem_of_nil in Hj.
Qed.

(** A value returned by the loop is the empty cell of a combination whose
    other two cells hold [m]. *)
Lemma completing_from_Some combinations m (board : Board) i :
  completing_from combinations m board = Some i
  → ∃ t, t ∈ combinations ∧ completable board m t i.
Proof.
  induction combinations as [|[[a b] c] rest IH]; simpl; [discriminate|].
  destruct (is_mark m (board !! a) && is_mark m (board !! b)
            && is_null (board !! c)) eqn:H1;
    [|destruct (is_mark m (board !! a) && is_mark m (board !! c)
                && is_null (board !! b)) eqn:H2;
      [|destruct (is_mark m (board !! b) && is_mark m (board !! c)
                  && is_null (board !! a)) eqn:H3]].
  - intros [= <-]. unfold_tests. destruct H1 as [[Ha Hb] Hc].
    exists (a, b, c). split; [by left|by apply completable_third].
  - intros [= <-]. unfold_tests. destruct H2 as [[Ha Hc] Hb].
    exists (a, b, c). split; [by left|by apply completable_second].
  - intros [= <-]. unfold_tests. destruct H3 as [[Hb Hc] Ha].
    exists (a, b, c). split; [by left|by apply completable_first].
  - intros (t & Ht & Hcomp)%IH. exists t. split; [by right|done].
Qed.

(** When the loop falls through, no combination with three distinct cells
    can be completed by [m]. *)
Lemma completing_from_None combinations m (board : Board) :
  completing_from combinations m board = None
  → ∀ t i, t ∈ combinations → NoDup (cells t) → ¬ completable board m t i.
Proof.
  induction combinations as [|[[a b] c] rest IH]; simpl.
  { intros _ t i Hin. by apply elem_of_nil in Hin. }
  destruct (is_mark m (board !! a) && is_mark m (board !! b)
            && is_null (board !! c)) eqn:H1; [discriminate|].
  destruct (is_mark m (board !! a) && is_mark m (board !! c)
            && is_null (board !! b)) eqn:H2; [discriminate|].
  destruct (is_mark m (board !! b) && is_mark m (board !! c)
            && is_null (board !! a)) eqn:H3; [discriminate|].
  intros Hrest t i [-> | Hin]%elem_of_cons Hnd; [|by apply IH].
  intros (Hi & Hnull & Hothers). simpl in Hi, Hothers, Hnd.
  apply NoDup_cons in Hnd as [Hab Hnd]. apply NoDup_cons in Hnd as [Hbc _].
  assert (a ≠ b ∧ a ≠ c ∧ b ≠ c) as (Hab' & Hac' & Hbc').
  { split_and!; intros ->; [apply Hab|apply Hab|apply Hbc];
      repeat constructor. }
  assert (Hin : ∀ j, j = a ∨ j = b ∨ j = c → j ∈ [a; b; c]).
  { intros j Hj. rewrite !elem_of_cons. tauto. }
  apply not_true_iff_false in H1, H2, H3.
  unfold is_mark, is_null in *.
  rewrite !andb_true_iff, !bool_decide_eq_true in H1, H2, H3.
  repeat (apply elem_of_cons in Hi as [-> | Hi]);
    [apply H3|apply H2|apply H1|by apply elem_of_nil in Hi];
    (split_and!; [apply Hothers; [apply Hin; tauto|naive_solver]..|done]).
Qed.

Lemma tier_complete m (board : Board) :
  (∃ t i, t ∈ winningCombinations ∧ completable board m t i)
  → ∃ i, completing_from winningCombinations m board = Some i.
Proof.
  intros (t & i & Ht & Hcomp).
  destruct (completing_from winningCombinations m board) as [move|] eqn:Heq;
    [by exists move|].
  exfalso. eapply completing_from_None; eauto.
  by apply winningCombinations_NoDup.
Qed.

(** [Math.floor(Math.random() * n)] addresses an element of an array of
    [n > 0] elements. *)
Lemma randomIndex_bounds random n :
  unitInterval random → 0 < n →
  (0 ≤ randomIndex random n < Z.of_nat n)%Z.
Proof.
  intros [Hlo Hhi] Hn. unfold randomIndex.
  set (len := inject_Z (Z.of_nat n)).
  assert (Hpos : (0 < len)%Q).
  { unfold len. rewrite <- (Zlt_Qlt 0). lia. }
  split.
  - rewrite <- (Qfloor_Z 0). apply Qfloor_resp_le.
    apply Qmult_le_0_compat; [done|by apply Qlt_le_weak].
  - rewrite Zlt_Qlt. eapply Qle_lt_trans; [apply Qfloor_le|].
    fold len. rewrite <- (Qmult_1_l len) at 2.
    by apply Qmult_lt_compat_r.
Qed.

Lemma item_in_range {A} (array : list A) (index : Z) :
  (0 ≤ index < Z.of_nat (length array))%Z
  → ∃ element, item array index = Some element ∧ element ∈ array.
Proof.
  intros [Hlo Hhi]. unfold item. rewrite decide_True by done.
  destruct (lookup_lt_is_Some_2 array (Z.to_nat index)) as [element He];
    [lia|].
  exists element. split; [done|]. apply list_elem_of_lookup. eauto.
Qed.

Lemma item_None_out_of_range {A} (array : list A) (index : Z) :
  ¬ (0 ≤ index < Z.of_nat (length array))%Z → item array index = None.
Proof.
  intros Hout. unfold item. case_decide; [|done].
  apply lookup_ge_None. lia.
Qed.

(** C5. For every nine-cell board with at least one empty cell, and for
    every value in the unit interval that [Math.random()] may return,
    [getComputerMove] returns an index in 0..8 whose cell is empty. *)
Theorem getComputerMove_empty_cell (board : Board) (random : Q) :
  length board = 9 →
  (∃ i, board !! i = Some None) →
  unitInterval random →
  ∃ move, getComputerMove board random = Some move
          ∧ move < 9 ∧ board !! move = Some None.
Proof.
  intros Hlen [i Hi] Hrandom.
  enough (∃ move, getComputerMove board random = Some move
                  ∧ board !! move = Some None) as (move & Hmove & Hnull).
  { exists move. split_and!; [done| |done].
    rewrite <- Hlen. by eapply lookup_lt_Some. }
  unfold getComputerMove.
  destruct (tryToWin board) as [move|] eqn:Hwin.
  { apply completing_from_Some in Hwin as (t & _ & _ & Hnull & _). eauto. }
  destruct (blockPlayer board) as [move|] eqn:Hblock.
  { apply completing_from_Some in Hblock as (t & _ & _ & Hnull & _). eauto. }
  destruct (is_null (board !! 4)) eqn:Hcentre.
  { exists 4. split; [done|]. by apply bool_decide_eq_true in Hcentre. }
  case_bool_decide as Hcorners.
  - destruct (item_in_range
                (filter (λ corner, board !! corner = Some None) corners)
                (randomIndex random
                   (length (filter (λ corner, board !! corner = Some None)
                              corners))))
      as (corner & Hitem & Hin).
    { by apply randomIndex_bounds. }
    exists corner. split; [done|].
    by apply list_elem_of_filter in Hin as [Hnull _].
  - assert (Hmoves : 0 < length (getAvailableMoves board)).
    { apply elem_of_getAvailableMoves in Hi.
      destruct (getAvailableMoves board); [by apply elem_of_nil in Hi|].
      simpl. lia. }
    destruct (item_in_range (getAvailableMoves board)
                (randomIndex random (length (getAvailableMoves board))))
      as (move & Hitem & Hin).
    { by apply randomIndex_bounds. }
    exists move. split; [done|]. by apply elem_of_getAvailableMoves.
Qed.

Lemma getComputerMove_empty_cell_witness :
  ∃ move,
    getComputerMove
      [Some X; Some O; Some X; Some X; Some O; Some O; Some O; Some X; None]
      (9 # 10) = Some move
    ∧ move < 9
    ∧ [Some X; Some O; Some X; Some X; Some O; Some O; Some O; Some X; None]
        !! move = Some None.
Proof.
  apply getComputerMove_empty_cell.
  - reflexivity.
  - exists 8. reflexivity.
  - split; [discriminate|reflexivity].
Defined.



(** The scenario of the specification: X holds cells 0 and 1, cell 2 is
    empty.  The "try to win" tier yields nothing, and the move returned is
    cell 2, from the "block" tier. *)
Example getComputerMove_blocks_top_row random :
  let board : Board :=
    [Some X; Some X; None; None; None; None; None; None; None] in
  tryToWin board = None ∧ blockPlayer board = Some 2
  ∧ getComputerMove board random = Some 2.
Proof. done. Qed.

(** ** Session controller: lemmas *)

Lemma rejected_false (gameState : GameState) (index : Z) :
  rejected gameState index = false ↔
  item (board gameState) index = Some None ∧ gameStatus gameState = playing.
Proof.
  unfold rejected. rewrite orb_false_iff, !bool_decide_eq_false.
  split; intros [H1 H2]; split; try by apply dec_stable.
  all: by intros ?.
Qed.

Lemma item_Some {A} (array : list A) (index : Z) element :
  item array index = Some element
  → (0 ≤ index)%Z ∧ array !! Z.to_nat index = Some element.
Proof. unfold item. by case_decide. Qed.

Lemma handleCellClick_board (gameState : GameState) (index : Z) :
  rejected gameState index = false →
  board (handleCellClick gameState index).1
  = <[Z.to_nat index := currentPlayer gameState]> (board gameState).
Proof.
  intros Hacc. unfold handleCellClick, handleCellClickOn. rewrite Hacc. cbv zeta.
  destruct (checkWinner _); [done|]. by destruct (isBoardFull _).
Qed.

Lemma handleCellClick_currentPlayer (gameState : GameState) (index : Z) :
  rejected gameState index = false →
  currentPlayer (handleCellClick gameState index).1
  = if decide (currentPlayer gameState = Some X) then Some O else Some X.
Proof.
  intros Hacc. unfold handleCellClick, handleCellClickOn. rewrite Hacc. cbv zeta.
  destruct (checkWinner _); [done|]. by destruct (isBoardFull _).
Qed.


Lemma opponent_flip (m : Mark) :
  (if decide (Some m = Some X) then Some O else Some X) = Some (opponent m).
Proof. by destruct m. Qed.


(** Every event keeps the board at nine cells and the turn marker set. *)
Lemma dispatch_wellFormed (gameState : GameState) (e : Event) :
  wellFormed gameState → wellFormed (dispatch gameState e).
Proof.
  intros [Hlen Hturn]. destruct e as [index| | |mode]; simpl; try done.
  destruct (rejected gameState index) eqn:Hrej.
  - unfold handleCellClick, handleCellClickOn. by rewrite Hrej.
  - split.
    + by rewrite handleCellClick_board, length_insert.
    + rewrite handleCellClick_currentPlayer by done. by case_decide.
Qed.

Lemma reachable_wellFormed (events : list Event) :
  wellFormed (foldl dispatch initialGameState events).
Proof.
  assert (H : ∀ gameState, wellFormed gameState →
                           wellFormed (foldl dispatch gameState events)).
  { induction events as [|e events IH]; intros gameState Hwf; [done|].
    simpl. by apply IH, dispatch_wellFormed. }
  by apply H.
Qed.

Lemma topRowOpen_reached :
  clicks initialGameState [0; 3; 1; 4]%Z = topRowOpen.
Proof. reflexivity. Qed.

(** ** Session controller: theorems *)

(** The "win" scenario of the specification: X plays 0, 1, 2 with O
    playing 3, 4 in between. *)
Example scenario_top_row_win :
  let final := clicks initialGameState [0; 3; 1; 4; 2]%Z in
  gameStatus final = won ∧ winner final = Some X ∧ x (score final) = 1.
Proof. split_and!; vm_compute; reflexivity. Qed.

(** C3. For every session state, a click on an occupied cell, in a session
    that is not in progress, or with an index outside the board (outside
    0..8 on the nine-cell board of every session) changes nothing: the state
    record, with board, status, winner, turn, score and mode, is returned as
    it was, and nothing is notified. *)
Theorem handleCellClick_ignored (gameState : GameState) (index : Z) :
  (∃ m, item (board gameState) index = Some (Some m))
  ∨ gameStatus gameState ≠ playing
  ∨ ¬ (0 ≤ index < Z.of_nat (length (board gameState)))%Z →
  handleCellClick gameState index = (gameState, []).
Proof.
  intros Hcase.
  assert (Hrej : rejected gameState index = true).
  { unfold rejected. apply orb_true_iff.
    destruct Hcase as [[m Hm]|[Hstatus|Hrange]].
    - left. apply bool_decide_eq_true. by rewrite Hm.
    - right. by apply bool_decide_eq_true.
    - left. apply bool_decide_eq_true.
      by rewrite item_None_out_of_range. }
  unfold handleCellClick, handleCellClickOn. by rewrite Hrej.
Qed.

Lemma handleCellClick_ignored_witness :
  ¬ (0 ≤ 9 < Z.of_nat (length (board initialGameState)))%Z
  ∧ handleCellClick initialGameState 9 = (initialGameState, []).
Proof.
  assert (Hout : ¬ (0 ≤ 9 < Z.of_nat (length (board initialGameState)))%Z)
    by (simpl; lia).
  split; [exact Hout|].
  apply (handleCellClick_ignored initialGameState 9). right. right.
  exact Hout.
Defined.

(** C6, as the code has it.  On every accepted click the turn marker is
    flipped to the other mark, whatever the resulting status is: in
    progress, won or draw. *)
Theorem handleCellClick_flips_turn (gameState : GameState) (index : Z)
    (m : Mark) :
  gameStatus gameState = playing →
  item (board gameState) index = Some None →
  currentPlayer gameState = Some m →
  currentPlayer (handleCellClick gameState index).1 = Some (opponent m).
Proof.
  intros Hplaying Hempty Hm.
  rewrite handleCellClick_currentPlayer by by apply rejected_false.
  rewrite Hm. apply opponent_flip.
Qed.

Lemma handleCellClick_flips_turn_witness :
  gameStatus topRowOpen = playing
  ∧ item (board topRowOpen) 2 = Some None
  ∧ currentPlayer topRowOpen = Some X
  ∧ currentPlayer (handleCellClick topRowOpen 2).1 = Some (opponent X).
Proof.
  split_and!; [reflexivity..|].
  apply (handleCellClick_flips_turn topRowOpen 2 X); reflexivity.
Defined.

(** C6 as stated fails: the click on cell 2 with X holding cells 0 and 1 is
    accepted and wins the game, yet the turn marker moves from X to O. *)
Lemma winning_click_flips_turn :
  rejected topRowOpen 2 = false
  ∧ gameStatus (handleCellClick topRowOpen 2).1 = won
  ∧ currentPlayer topRowOpen = Some X
  ∧ currentPlayer (handleCellClick topRowOpen 2).1 = Some O
  ∧ currentPlayer (handleCellClick topRowOpen 2).1
    ≠ currentPlayer topRowOpen.
Proof. split_and!; [vm_compute; reflexivity..|vm_compute; discriminate]. Qed.


(** Rejected clicks (an occupied cell, an index off the board) leave no
    mark and do not disturb the alternation. *)
Example marksPlaced_with_rejections :
  marksPlaced initialGameState [0; 0; 4; 9; -1; 8]%Z
  = [Some (Some X); Some (Some O); Some (Some X)].
Proof. vm_compute. reflexivity. Qed.

(** C9, as the code has it.  On the clicks 0, 1, 2, 4, 3, 5, 6, 8, 7 from a
    fresh session no line is complete after any of the first six clicks; the
    seventh click, X on cell 6, completes the column 0, 3, 6, so the status
    becomes won with winner X and score.x = 1; the clicks on 8 and 7 are then
    ignored, and the final state is won with score.draws = 0. *)
Theorem scenario_column_win :
  (∀ k, k < 7 →
        checkWinner (board (clicks initialGameState (take k scenarioMoves)))
        = None
        ∧ gameStatus (clicks initialGameState (take k scenarioMoves))
          = playing)
  ∧ owns (board (clicks initialGameState (take 7 scenarioMoves))) X (0, 3, 6)
  ∧ clicks initialGameState scenarioMoves
    = clicks initialGameState (take 7 scenarioMoves)
  ∧ gameStatus (clicks initialGameState scenarioMoves) = won
  ∧ winner (clicks initialGameState scenarioMoves) = Some X
  ∧ score (clicks initialGameState scenarioMoves) = mkScore 1 0 0.
Proof.
  split_and!.
  - intros k Hk.
    assert (k = 0 ∨ k = 1 ∨ k = 2 ∨ k = 3 ∨ k = 4 ∨ k = 5 ∨ k = 6)
      as Hcases by lia.
    repeat (destruct Hcases as [-> | Hcases]); [..|subst k];
      split; vm_compute; reflexivity.
  - vm_compute. auto.
  - vm_compute. reflexivity.
  - vm_compute. reflexivity.
  - vm_compute. reflexivity.
  - vm_compute. reflexivity.
Qed.

(** C9 as stated fails: after the nine clicks the status is won, not draw,
    the draw counter is 0, not 1, and a line was completed on the way. *)
Lemma scenario_is_not_a_draw :
  gameStatus (clicks initialGameState scenarioMoves) ≠ draw
  ∧ draws (score (clicks initialGameState scenarioMoves)) ≠ 1
  ∧ checkWinner (board (clicks initialGameState (take 7 scenarioMoves)))
    = Some X.
Proof. split_and!; [vm_compute; discriminate..|vm_compute; reflexivity]. Qed.

(** C10. For every session state, [resetScore] sets the three counters to
    zero and leaves board, status, winner, turn and mode as they were. *)
Theorem resetScore_spec (gameState : GameState) :
  score (resetScore gameState) = mkScore 0 0 0
  ∧ board (resetScore gameState) = board gameState
  ∧ gameStatus (resetScore gameState) = gameStatus gameState
  ∧ winner (resetScore gameState) = winner gameState
  ∧ currentPlayer (resetScore gameState) = currentPlayer gameState
  ∧ gameMode (resetScore gameState) = gameMode gameState.
Proof. by split_and!. Qed.

(** ** Further properties of the rules engine *)

(** The pipeline of [getAvailableMoves] with the indices shifted by [k]:
    its result is strictly increasing, starts at [k] or later, and has one
    entry per empty cell. *)
Lemma availableMoves_shifted (board : Board) :
  ∀ k,
    let moves :=
      omap id
        (filter (λ index : option nat, index ≠ None)
           (imap (λ index (cell : Player),
                    if decide (cell = None) then Some (k + index) else None)
                 board)) in
    StronglySorted lt moves ∧ Forall (λ i, k ≤ i) moves
    ∧ length moves = countCells None board.
Proof.
  induction board as [|cell board IH]; intros k; simpl.
  { split_and!; constructor. }
  rewrite (imap_ext _ (λ index (cell : Player),
             if decide (cell = None) then Some (S k + index) else None))
    by (intros; simpl; repeat case_decide; f_equal; lia).
  destruct (IH (S k)) as (Hsorted & Hlower & Hlen).
  unfold countCells in *. destruct cell as [m|].
  - rewrite decide_False by done.
    rewrite filter_cons_False by (intros H; by apply H).
    rewrite (filter_cons_False (λ c : Player, c = None)) by done.
    split_and!; [done| |done].
    eapply Forall_impl; [exact Hlower|]. simpl. lia.
  - rewrite decide_True by done.
    rewrite filter_cons_True by done.
    rewrite (filter_cons_True (λ c : Player, c = None)) by done.
    simpl. split_and!.
    + constructor; [done|].
      eapply Forall_impl; [exact Hlower|]. simpl. lia.
    + constructor; [lia|].
      eapply Forall_impl; [exact Hlower|]. simpl. lia.
    + f_equal. exact Hlen.
Qed.

(** X1. [getAvailableMoves] lists the indices of the empty cells, each once
    and in increasing order: the list is strictly increasing, an index is in
    it exactly when its cell is [null], and its length is the number of
    empty cells. *)
Theorem getAvailableMoves_sorted_exact (board : Board) :
  StronglySorted lt (getAvailableMoves board)
  ∧ (∀ i, i ∈ getAvailableMoves board ↔ board !! i = Some None)
  ∧ length (getAvailableMoves board) = countCells None board.
Proof.
  destruct (availableMoves_shifted board 0) as (Hsorted & _ & Hlen).
  split_and!; [exact Hsorted|apply elem_of_getAvailableMoves|exact Hlen].
Qed.

Lemma swapMarks_lookup (board : Board) i :
  swapMarks board !! i = fmap (M := option) opponent <$> board !! i.
Proof. apply list_lookup_fmap. Qed.

Lemma swapMarks_is_mark (board : Board) m i :
  is_mark (opponent m) (swapMarks board !! i) = is_mark m (board !! i).
Proof.
  unfold is_mark. rewrite swapMarks_lookup.
  destruct (board !! i) as [[[]|]|], m; reflexivity.
Qed.

Lemma swapMarks_is_null (board : Board) i :
  is_null (swapMarks board !! i) = is_null (board !! i).
Proof.
  unfold is_null. rewrite swapMarks_lookup.
  by destruct (board !! i) as [[[]|]|].
Qed.

Lemma completing_from_swapMarks combinations m (board : Board) :
  completing_from combinations (opponent m) (swapMarks board)
  = completing_from combinations m board.
Proof.
  induction combinations as [|[[a b] c] rest IH]; simpl; [done|].
  by rewrite !swapMarks_is_mark, !swapMarks_is_null, IH.
Qed.

Lemma checkWinner_from_swapMarks combinations (board : Board) :
  checkWinner_from combinations (swapMarks board)
  = opponent <$> checkWinner_from combinations board.
Proof.
  induction combinations as [|[[a b] c] rest IH]; simpl; [done|].
  rewrite !swapMarks_lookup, IH.
  destruct (board !! a) as [[[]|]|], (board !! b) as [[[]|]|],
    (board !! c) as [[[]|]|]; reflexivity.
Qed.

(** X2. The engine and the strategy treat the two marks alike: on the board
    with X and O exchanged [checkWinner] returns the exchanged winner, and
    the "block" tier is the "try to win" tier of the exchanged board (and
    the other way round). *)
Theorem swapMarks_symmetry (board : Board) :
  checkWinner (swapMarks board) = opponent <$> checkWinner board
  ∧ blockPlayer board = tryToWin (swapMarks board)
  ∧ tryToWin board = blockPlayer (swapMarks board)
  ∧ isBoardFull (swapMarks board) = isBoardFull board.
Proof.
  split_and!.
  - apply checkWinner_from_swapMarks.
  - symmetry. apply (completing_from_swapMarks winningCombinations X).
  - symmetry. apply (completing_from_swapMarks winningCombinations O).
  - induction board as [|cell board IH]; [done|].
    change (isBoardFull (swapMarks (cell :: board)))
      with (bool_decide (opponent <$> cell ≠ None)
            && isBoardFull (swapMarks board)).
    rewrite IH. by destruct cell.
Qed.

(** ** Further properties of the opponent strategy *)

Lemma completing_from_nothing m (board : Board) :
  (∀ t i, t ∈ winningCombinations → ¬ completable board m t i)
  → completing_from winningCombinations m board = None.
Proof.
  intros Hnone.
  destruct (completing_from winningCombinations m board) as [i|] eqn:Hi;
    [|done].
  apply completing_from_Some in Hi as (t & Ht & Hcomp).
  exfalso. by eapply Hnone.
Qed.

Lemma completing_from_full m (board : Board) :
  (∀ i, board !! i ≠ Some None)
  → completing_from winningCombinations m board = None.
Proof.
  intros Hfull. apply completing_from_nothing.
  intros t i _ (_ & Hnull & _). by eapply Hfull.
Qed.

Lemma item_nil {A} (index : Z) : item (@nil A) index = None.
Proof. unfold item. by case_decide. Qed.

Lemma filter_nonempty_elem {A} (P : A → Prop) `{!∀ a, Decision (P a)}
    (l : list A) :
  0 < length (filter P l) → ∃ a, a ∈ l ∧ P a.
Proof.
  destruct (filter P l) as [|a rest] eqn:Heq; simpl; [lia|]. intros _.
  assert (Hin : a ∈ filter P l) by (rewrite Heq; by left).
  apply list_elem_of_filter in Hin as [HP Hin]. eauto.
Qed.

Lemma filter_elem_nonempty {A} (P : A → Prop) `{!∀ a, Decision (P a)}
    (l : list A) a :
  a ∈ l → P a → 0 < length (filter P l).
Proof.
  intros Hin HP.
  assert (Hf : a ∈ filter P l) by by apply list_elem_of_filter.
  destruct (filter P l); [by apply elem_of_nil in Hf|]. simpl. lia.
Qed.

(** Whatever [getComputerMove] returns is the index of an empty cell, and it
    does return an index when the board has an empty cell. *)
Lemma getComputerMove_Some_empty (board : Board) (random : Q) move :
  getComputerMove board random = Some move → board !! move = Some None.
Proof.
  unfold getComputerMove.
  destruct (tryToWin board) as [i|] eqn:Hwin.
  { intros [= <-].
    by apply completing_from_Some in Hwin as (t & _ & _ & Hnull & _). }
  destruct (blockPlayer board) as [i|] eqn:Hblock.
  { intros [= <-].
    by apply completing_from_Some in Hblock as (t & _ & _ & Hnull & _). }
  destruct (is_null (board !! 4)) eqn:Hcentre.
  { intros [= <-]. by apply bool_decide_eq_true in Hcentre. }
  case_bool_decide as Hcorners.
  - intros [_ Hmove]%item_Some.
    assert (Hin : move ∈ filter (λ corner, board !! corner = Some None)
                           corners)
      by (apply list_elem_of_lookup; eauto).
    by apply list_elem_of_filter in Hin as [Hnull _].
  - intros [_ Hmove]%item_Some. apply elem_of_getAvailableMoves.
    apply list_elem_of_lookup. eauto.
Qed.

Lemma getComputerMove_is_Some (board : Board) (random : Q) :
  (∃ i, board !! i = Some None) → unitInterval random →
  ∃ move, getComputerMove board random = Some move.
Proof.
  intros [i Hi] Hrandom. unfold getComputerMove.
  destruct (tryToWin board) as [move|]; [by eexists|].
  destruct (blockPlayer board) as [move|]; [by eexists|].
  destruct (is_null (board !! 4)); [by eexists|].
  case_bool_decide as Hcorners.
  - edestruct (item_in_range
                 (filter (λ corner, board !! corner = Some None) corners))
      as (corner & Hitem & _); [by apply randomIndex_bounds|]. eauto.
  - edestruct (item_in_range (getAvailableMoves board))
      as (move & Hitem & _); [|by eauto].
    apply randomIndex_bounds; [done|].
    apply elem_of_getAvailableMoves in Hi.
    destruct (getAvailableMoves board); [by apply elem_of_nil in Hi|].
    simpl. lia.
Qed.

(** X3. On a board without an empty cell [getComputerMove] returns
    [undefined], whatever [Math.random()] yields: no tier finds a cell and
    the last one indexes the empty list of available moves. *)
Theorem getComputerMove_full_board (board : Board) (random : Q) :
  (∀ i, board !! i ≠ Some None) → getComputerMove board random = None.
Proof.
  intros Hfull.
  destruct (getComputerMove board random) as [move|] eqn:Hmove; [|done].
  apply getComputerMove_Some_empty in Hmove. by apply Hfull in Hmove.
Qed.

Lemma getComputerMove_full_board_witness :
  getComputerMove
    [Some X; Some O; Some X; Some X; Some O; Some O; Some O; Some X; Some X]
    (1 # 3) = None.
Proof.
  apply getComputerMove_full_board.
  intros i. do 9 (destruct i as [|i]; [discriminate|]). discriminate.
Defined.

(** X4. When neither mark can complete a combination and the centre is
    empty, [getComputerMove] returns the centre, index 4, independently of
    the random source. *)
Theorem getComputerMove_centre (board : Board) (random : Q) :
  (∀ m t i, t ∈ winningCombinations → ¬ completable board m t i) →
  board !! 4 = Some None →
  getComputerMove board random = Some 4.
Proof.
  intros Hnone Hcentre. unfold getComputerMove, tryToWin, blockPlayer.
  rewrite !completing_from_nothing by (intros t i; apply Hnone).
  unfold is_null. by rewrite bool_decide_true.
Qed.

Lemma no_completable_by_scan (board : Board) :
  tryToWin board = None → blockPlayer board = None →
  ∀ m t i, t ∈ winningCombinations → ¬ completable board m t i.
Proof.
  intros Hwin Hblock m t i Ht Hcomp.
  destruct (tier_complete m board) as [j Hj]; [eauto|].
  destruct m; unfold tryToWin, blockPlayer in *; congruence.
Qed.

Lemma getComputerMove_centre_witness :
  getComputerMove
    [Some X; None; None; None; None; None; None; None; None] (1 # 3)
  = Some 4.
Proof.
  apply getComputerMove_centre; [|reflexivity].
  by apply no_completable_by_scan.
Defined.

(** X5. When neither mark can complete a combination and the centre is
    taken, [getComputerMove] returns an empty corner if there is one, and
    otherwise an empty cell that is neither a corner nor the centre. *)
Theorem getComputerMove_corner_first (board : Board) (random : Q) :
  (∀ m t i, t ∈ winningCombinations → ¬ completable board m t i) →
  board !! 4 ≠ Some None →
  (∃ i, board !! i = Some None) →
  unitInterval random →
  ∃ move, getComputerMove board random = Some move
          ∧ board !! move = Some None
          ∧ ((∃ corner, corner ∈ corners ∧ board !! corner = Some None)
             → move ∈ corners)
          ∧ ((∀ corner, corner ∈ corners → board !! corner ≠ Some None)
             → (move ∉ corners) ∧ move ≠ 4).
Proof.
  intros Hnone Hcentre Hempty Hrandom.
  destruct (getComputerMove_is_Some board random Hempty Hrandom)
    as [move Hmove].
  exists move. split; [done|].
  split; [by eapply getComputerMove_Some_empty|].
  revert Hmove. unfold getComputerMove, tryToWin, blockPlayer.
  rewrite !completing_from_nothing by (intros t i; apply Hnone).
  unfold is_null. rewrite bool_decide_false by done.
  case_bool_decide as Hcorners; intros [_ Hmove]%item_Some.
  - assert (Hin : move ∈ filter (λ corner, board !! corner = Some None)
                           corners)
      by (apply list_elem_of_lookup; eauto).
    apply list_elem_of_filter in Hin as [Hnull Hin].
    split; [done|]. intros Hno. by apply Hno in Hin.
  - split.
    + intros (corner & Hin & Hc). exfalso. apply Hcorners.
      by eapply filter_elem_nonempty.
    + intros _. split; [|intros ->].
      * intros Hin. apply Hcorners. eapply filter_elem_nonempty; [done|].
        apply elem_of_getAvailableMoves, list_elem_of_lookup. eauto.
      * apply Hcentre.
        apply elem_of_getAvailableMoves, list_elem_of_lookup. eauto.
Qed.

Lemma getComputerMove_corner_first_witness :
  ∃ move,
    getComputerMove
      [Some X; None; None; None; Some O; None; None; None; None] (1 # 3)
    = Some move
    ∧ [Some X; None; None; None; Some O; None; None; None; None] !! move
      = Some None
    ∧ move ∈ corners.
Proof.
  destruct (getComputerMove_corner_first
              [Some X; None; None; None; Some O; None; None; None; None]
              (1 # 3)) as (move & Hmove & Hnull & Hcorner & _).
  - by apply no_completable_by_scan.
  - discriminate.
  - exists 1. reflexivity.
  - split; [discriminate|reflexivity].
  - exists move. split_and!; [done|done|].
    apply Hcorner. exists 2. split; [repeat constructor|reflexivity].
Defined.

(** ** Further properties of the session controller *)

Lemma handleCellClick_rejected (gameState : GameState) (index : Z) :
  rejected gameState index = true →
  handleCellClick gameState index = (gameState, []).
Proof. intros Hrej. unfold handleCellClick, handleCellClickOn. by rewrite Hrej. Qed.

(** The result of an accepted click, with the branches of lines 108-125
    read as functions of the new board. *)
Lemma handleCellClick_outcome (gameState : GameState) (index : Z) :
  rejected gameState index = false →
  let newBoard : Board :=
    <[Z.to_nat index := currentPlayer gameState]> (board gameState) in
  handleCellClick gameState index
  = ({| board := newBoard;
        currentPlayer :=
          if decide (currentPlayer gameState = Some X) then Some O
          else Some X;
        gameStatus :=
          match checkWinner newBoard with
          | Some _ => won
          | None => if isBoardFull newBoard then draw else playing
          end;
        winner := checkWinner newBoard;
        gameMode := gameMode gameState;
        score :=
          match checkWinner newBoard with
          | Some w => addWin w (score gameState)
          | None => if isBoardFull newBoard then addDraw (score gameState)
                    else score gameState
          end |},
     match checkWinner newBoard with
     | Some w => [wonToast w]
     | None => if isBoardFull newBoard then [drawToast] else []
     end).
Proof.
  intros Hacc newBoard. unfold handleCellClick, handleCellClickOn. rewrite Hacc. cbv zeta.
  fold newBoard. destruct (checkWinner newBoard) as [[]|]; [done|done|].
  by destruct (isBoardFull newBoard).
Qed.

Lemma foldl_dispatch_invariant (P : GameState → Prop) :
  (∀ gameState e, P gameState → P (dispatch gameState e)) →
  ∀ events gameState, P gameState → P (foldl dispatch gameState events).
Proof.
  intros Hstep events.
  induction events as [|e events IH]; intros gameState HP; [done|].
  simpl. by apply IH, Hstep.
Qed.

Lemma isBoardFull_false_empty_cell (board : Board) :
  isBoardFull board = false → ∃ i, board !! i = Some None.
Proof.
  intros Hfull.
  destruct (getAvailableMoves board) as [|i moves] eqn:Hmoves.
  - assert (isBoardFull board = true)
      by by apply isBoardFull_true, getAvailableMoves_nil.
    congruence.
  - exists i. apply elem_of_getAvailableMoves. rewrite Hmoves. by left.
Qed.

Lemma dispatch_statusCoherent (gameState : GameState) (e : Event) :
  statusCoherent gameState → statusCoherent (dispatch gameState e).
Proof.
  intros Hcoh. destruct e as [index| | |mode]; simpl.
  - destruct (rejected gameState index) eqn:Hrej.
    + by rewrite handleCellClick_rejected.
    + rewrite handleCellClick_outcome by done. unfold statusCoherent. simpl.
      destruct (checkWinner _) as [w|] eqn:Hw; simpl.
      * split; [by eexists|done].
      * by destruct (isBoardFull _) eqn:Hfull.
  - by vm_compute.
  - exact Hcoh.
  - by vm_compute.
Qed.

Lemma countCells_insert (board : Board) i (old new value : Player) :
  board !! i = Some old →
  countCells value (<[i := new]> board)
    + (if decide (old = value) then 1 else 0)
  = countCells value board + (if decide (new = value) then 1 else 0).
Proof.
  unfold countCells. revert i.
  induction board as [|cell board IH]; intros i Hi; [done|].
  destruct i as [|i]; simpl in *.
  - injection Hi as ->. rewrite !filter_cons.
    repeat case_decide; simpl; lia.
  - specialize (IH i Hi). rewrite !filter_cons.
    repeat case_decide; simpl in *; lia.
Qed.

Lemma dispatch_balanced (gameState : GameState) (e : Event) :
  balanced gameState → balanced (dispatch gameState e).
Proof.
  intros Hbal. destruct e as [index| | |mode]; simpl.
  - destruct (rejected gameState index) eqn:Hrej.
    + by rewrite handleCellClick_rejected.
    + rewrite handleCellClick_outcome by done. unfold balanced. simpl.
      apply rejected_false in Hrej as [[_ Hcell]%item_Some _].
      pose proof (countCells_insert (board gameState) (Z.to_nat index)
                    None (currentPlayer gameState) (Some X) Hcell) as HX.
      pose proof (countCells_insert (board gameState) (Z.to_nat index)
                    None (currentPlayer gameState) (Some O) Hcell) as HO.
      destruct Hbal as [[Hturn Hcount]|[Hturn Hcount]]; rewrite Hturn in *.
      * right. repeat case_decide; simplify_eq. split; [done|lia].
      * left. repeat case_decide; simplify_eq. split; [done|lia].
  - left. by vm_compute.
  - exact Hbal.
  - left. by vm_compute.
Qed.

(** X6. In every state a session can reach from the initial one, by any
    sequence of clicks, new games, score resets and mode changes, status,
    winner and board agree: "playing" goes with a board that has no winner
    and an empty cell, "won" with a recorded winner that is the one
    [checkWinner] finds on the board, "draw" with a full board without a
    winner. *)
Theorem reachable_statusCoherent (events : list Event) :
  statusCoherent (foldl dispatch initialGameState events).
Proof.
  apply foldl_dispatch_invariant; [apply dispatch_statusCoherent|].
  by vm_compute.
Qed.

(** X7. In every reachable state the marks on the board are balanced: the
    board holds as many X as O when X is to move and one X more when O is
    to move. *)
Theorem reachable_balanced (events : list Event) :
  balanced (foldl dispatch initialGameState events).
Proof.
  apply foldl_dispatch_invariant; [apply dispatch_balanced|].
  left. by vm_compute.
Qed.

Lemma handleCellClick_keeps_marks (gameState : GameState) (index : Z) j m :
  board gameState !! j = Some (Some m) →
  board (handleCellClick gameState index).1 !! j = Some (Some m).
Proof.
  intros Hj. destruct (rejected gameState index) eqn:Hrej.
  - by rewrite handleCellClick_rejected.
  - rewrite handleCellClick_board by done.
    apply rejected_false in Hrej as [[_ Hcell]%item_Some _].
    rewrite list_lookup_insert_ne; [done|]. intros Heq. subst j. congruence.
Qed.

Lemma handleCellClick_length (gameState : GameState) (index : Z) :
  length (board (handleCellClick gameState index).1)
  = length (board gameState).
Proof.
  destruct (rejected gameState index) eqn:Hrej.
  - by rewrite handleCellClick_rejected.
  - by rewrite handleCellClick_board, length_insert.
Qed.

(** X9. Clicks never take a mark back or move it: over any run of clicks
    the board keeps its length, and a cell that holds a mark holds the same
    mark afterwards. *)
Theorem clicks_keep_marks (indices : list Z) (gameState : GameState) :
  length (board (clicks gameState indices)) = length (board gameState)
  ∧ ∀ j m, board gameState !! j = Some (Some m) →
           board (clicks gameState indices) !! j = Some (Some m).
Proof.
  revert gameState.
  induction indices as [|index rest IH]; intros gameState; [done|].
  destruct (IH (handleCellClick gameState index).1) as [Hlen Hkeep].
  split.
  - unfold clicks in *. simpl. by rewrite Hlen, handleCellClick_length.
  - intros j m Hj. unfold clicks in *. simpl.
    by apply Hkeep, handleCellClick_keeps_marks.
Qed.

(** X10. Once a game is won or drawn, clicks change nothing: any run of
    clicks returns the state as it was. *)
Theorem clicks_after_game_over (indices : list Z) (gameState : GameState) :
  gameStatus gameState ≠ playing → clicks gameState indices = gameState.
Proof.
  intros Hover. induction indices as [|index rest IH]; [done|].
  unfold clicks in *. simpl. rewrite handleCellClick_rejected; [done|].
  unfold rejected. apply orb_true_iff. right.
  by apply bool_decide_eq_true.
Qed.

Lemma clicks_after_game_over_witness :
  clicks (handleCellClick topRowOpen 2).1 [5; 2; 8]%Z
  = (handleCellClick topRowOpen 2).1.
Proof. apply clicks_after_game_over. discriminate. Defined.

Lemma lookup_insert_other_mark (board : Board) i j (m m' : Mark) :
  <[i := Some m]> board !! j = Some (Some m') → m' ≠ m →
  board !! j = Some (Some m').
Proof.
  intros Hj Hne. destruct (decide (i = j)) as [->|Hij].
  - destruct (decide (j < length board)) as [Hlt|Hge].
    + rewrite list_lookup_insert_eq in Hj by done. congruence.
    + by rewrite list_insert_ge in Hj by lia.
  - by rewrite list_lookup_insert_ne in Hj.
Qed.

Lemma owns_insert_other_mark (board : Board) i (m m' : Mark) t :
  owns (<[i := Some m]> board) m' t → m' ≠ m → owns board m' t.
Proof.
  destruct t as [[a b] c]. intros (Ha & Hb & Hc) Hne.
  split_and!; by eapply lookup_insert_other_mark.
Qed.

(** On a board without a winner, a mark written into it cannot make the
    other mark win. *)
Lemma checkWinner_insert_mover (board : Board) i (m w : Mark) :
  checkWinner board = None →
  checkWinner (<[i := Some m]> board) = Some w → w = m.
Proof.
  intros Hnone Hw. destruct (decide (w = m)) as [|Hne]; [done|].
  apply checkWinner_Some_line in Hw as (t & Ht & Hown).
  apply owns_insert_other_mark in Hown; [|done].
  exfalso. by eapply checkWinner_None_lines.
Qed.

Lemma completable_insert_owns (board : Board) (m : Mark) t i :
  completable board m t i → owns (<[i := Some m]> board) m t.
Proof.
  destruct t as [[a b] c]. intros (Hin & Hnull & Hothers).
  assert (Hcell : ∀ j, j ∈ [a; b; c] →
                       <[i := Some m]> board !! j = Some (Some m)).
  { intros j Hj. destruct (decide (j = i)) as [->|Hne].
    - apply list_lookup_insert_eq. by eapply lookup_lt_Some.
    - rewrite list_lookup_insert_ne by done. by apply Hothers. }
  split_and!; apply Hcell; repeat constructor.
Qed.

(** X11. On a board on which nobody has won yet, an accepted click can only
    make the player who moved the winner: the winner recorded afterwards is
    either none or the mark that was to move. *)
Theorem handleCellClick_only_mover_wins (gameState : GameState) (index : Z)
    (m : Mark) :
  gameStatus gameState = playing →
  item (board gameState) index = Some None →
  currentPlayer gameState = Some m →
  checkWinner (board gameState) = None →
  winner (handleCellClick gameState index).1 = None
  ∨ winner (handleCellClick gameState index).1 = Some m.
Proof.
  intros Hplaying Hempty Hm Hnone.
  rewrite handleCellClick_outcome by by apply rejected_false.
  simpl. rewrite Hm.
  destruct (checkWinner (<[Z.to_nat index := Some m]> (board gameState)))
    as [w|] eqn:Hw; [right|by left].
  f_equal. by eapply checkWinner_insert_mover.
Qed.

Lemma handleCellClick_only_mover_wins_witness :
  winner (handleCellClick topRowOpen 2).1 = None
  ∨ winner (handleCellClick topRowOpen 2).1 = Some X.
Proof.
  apply (handleCellClick_only_mover_wins topRowOpen 2 X); reflexivity.
Defined.

Lemma dispatch_score_le (gameState : GameState) (e : Event) :
  e ≠ ResetScore →
  x (score gameState) ≤ x (score (dispatch gameState e))
  ∧ o (score gameState) ≤ o (score (dispatch gameState e))
  ∧ draws (score gameState) ≤ draws (score (dispatch gameState e)).
Proof.
  intros Hne. destruct e as [index| | |mode]; simpl; [|lia|done|lia].
  destruct (rejected gameState index) eqn:Hrej.
  - rewrite handleCellClick_rejected by done. simpl. lia.
  - rewrite handleCellClick_outcome by done. simpl.
    destruct (checkWinner _) as [[]|]; simpl; [lia|lia|].
    destruct (isBoardFull _); simpl; lia.
Qed.

(** X13. Over any sequence of events that contains no score reset (clicks,
    new games, mode changes) no counter of the score ever decreases. *)
Theorem score_never_decreases (events : list Event)
    (gameState : GameState) :
  ResetScore ∉ events →
  x (score gameState) ≤ x (score (foldl dispatch gameState events))
  ∧ o (score gameState) ≤ o (score (foldl dispatch gameState events))
  ∧ draws (score gameState)
    ≤ draws (score (foldl dispatch gameState events)).
Proof.
  revert gameState.
  induction events as [|e events IH]; intros gameState Hno; [simpl; lia|].
  apply not_elem_of_cons in Hno as [Hne Hno].
  destruct (dispatch_score_le gameState e) as (Hx & Ho & Hd); [done|].
  destruct (IH (dispatch gameState e) Hno) as (Hx' & Ho' & Hd').
  simpl. lia.
Qed.

Lemma score_never_decreases_witness :
  x (score topRowOpen)
  ≤ x (score (foldl dispatch topRowOpen
                [CellClick 2; NewGame; ChooseMode computer; CellClick 4])).
Proof.
  apply (score_never_decreases
           [CellClick 2; NewGame; ChooseMode computer; CellClick 4]
           topRowOpen).
  intros Hin.
  repeat (apply elem_of_cons in Hin as [Heq | Hin]; [discriminate Heq|]).
  by apply elem_of_nil in Hin.
Defined.

(** X14. A toast is sent exactly when an accepted click ends the game: one
    "won" toast naming the recorded winner, or one "draw" toast; a rejected
    click and a click after which the game goes on send none. *)
Theorem handleCellClick_toasts (gameState : GameState) (index : Z) :
  let next := (handleCellClick gameState index).1 in
  (handleCellClick gameState index).2
  = if rejected gameState index then []
    else match gameStatus next, winner next with
         | won, Some w => [wonToast w]
         | draw, _ => [drawToast]
         | _, _ => []
         end.
Proof.
  intros next. subst next. destruct (rejected gameState index) eqn:Hrej.
  - by rewrite handleCellClick_rejected.
  - rewrite handleCellClick_outcome by done. simpl.
    destruct (checkWinner _) as [w|]; [done|].
    by destruct (isBoardFull _).
Qed.

Lemma marksPlaced_bound (indices : list Z) :
  ∀ gameState : GameState,
    is_Some (currentPlayer gameState) →
    length (marksPlaced gameState indices)
    ≤ countCells None (board gameState).
Proof.
  induction indices as [|index rest IH]; intros gameState Hturn;
    [simpl; lia|].
  simpl. destruct (rejected gameState index) eqn:Hrej.
  - rewrite handleCellClick_rejected by done. by apply IH.
  - simpl.
    assert (Hnext : is_Some (currentPlayer
                               (handleCellClick gameState index).1)).
    { rewrite handleCellClick_currentPlayer by done. by case_decide. }
    specialize (IH _ Hnext). rewrite handleCellClick_board in IH by done.
    apply rejected_false in Hrej as [[_ Hcell]%item_Some _].
    pose proof (countCells_insert (board gameState) (Z.to_nat index)
                  None (currentPlayer gameState) None Hcell) as Hcount.
    destruct Hturn as [m Hm]. rewrite Hm in *.
    rewrite decide_True in Hcount by done.
    rewrite decide_False in Hcount by done. lia.
Qed.

(** X15. A game takes at most as many accepted clicks as the board has
    empty cells: for any run of clicks from a state with a mark to move, the
    number of marks placed is at most the number of empty cells, hence at
    most nine from a fresh board. *)
Theorem marksPlaced_at_most_empty_cells (indices : list Z)
    (gameState : GameState) :
  is_Some (currentPlayer gameState) →
  length (marksPlaced gameState indices)
  ≤ countCells None (board gameState).
Proof. apply marksPlaced_bound. Qed.

Lemma marksPlaced_at_most_empty_cells_witness :
  length (marksPlaced initialGameState [0; 4; 4; 8; 1; 7; 2; 6; 3; 5]%Z) ≤ 9.
Proof.
  apply (marksPlaced_at_most_empty_cells
           [0; 4; 4; 8; 1; 7; 2; 6; 3; 5]%Z initialGameState).
  by eexists.
Defined.

(** X8. In every reachable state the board has exactly nine cells and the
    turn marker holds a mark, X or O, never [null]. *)
Theorem reachable_nine_cells (events : list Event) :
  length (board (foldl dispatch initialGameState events)) = 9
  ∧ (currentPlayer (foldl dispatch initialGameState events) = Some X
     ∨ currentPlayer (foldl dispatch initialGameState events) = Some O).
Proof.
  destruct (foldl_dispatch_invariant wellFormed dispatch_wellFormed events
              initialGameState) as [Hlen [m Hm]].
  { split; [done|by eexists]. }
  split; [done|]. rewrite Hm. destruct m; auto.
Qed.

(** ** The computer's turn, the first click of a game, the board grid *)

Lemma item_of_nat {A} (array : list A) (i : nat) :
  item array (Z.of_nat i) = array !! i.
Proof. unfold item. rewrite decide_True by lia. by rewrite Nat2Z.id. Qed.

(** X17. In every reachable state in which the timer of the computer's turn
    is set (computer mode, O to move, game in progress), the timer callback
    fired in that state makes a move: for every value of the random source
    it writes O into a cell among 0..8 that was empty, hands the turn to X
    and stays in computer mode. *)
Theorem computerMoveTimer_moves (events : list Event) (random : Q) :
  let gameState := foldl dispatch initialGameState events in
  computerToMove gameState = true →
  unitInterval random →
  ∃ move next toasts,
    computerMoveTimer gameState random = Some (next, toasts)
    ∧ move < 9
    ∧ board gameState !! move = Some None
    ∧ board next = <[move := Some O]> (board gameState)
    ∧ currentPlayer next = Some X
    ∧ gameMode next = computer.
Proof.
  intros gameState Hturn Hrandom.
  assert (Hwf : wellFormed gameState)
    by (apply foldl_dispatch_invariant;
        [apply dispatch_wellFormed|split; [done|by eexists]]).
  assert (Hcoh : statusCoherent gameState)
    by (apply foldl_dispatch_invariant;
        [apply dispatch_statusCoherent|by vm_compute]).
  pose proof Hturn as Hcond. unfold computerToMove in Hcond.
  rewrite !andb_true_iff, !bool_decide_eq_true in Hcond.
  destruct Hcond as [[Hmode HO] Hplaying].
  unfold statusCoherent in Hcoh. rewrite Hplaying in Hcoh.
  destruct Hcoh as (_ & Hfull & _).
  apply isBoardFull_false_empty_cell in Hfull.
  destruct (getComputerMove_is_Some _ random Hfull Hrandom) as [move Hmove].
  pose proof (getComputerMove_Some_empty _ _ _ Hmove) as Hnull.
  assert (Hacc : rejected gameState (Z.of_nat move) = false).
  { apply rejected_false. by rewrite item_of_nat. }
  exists move, (handleCellClick gameState (Z.of_nat move)).1,
    (handleCellClick gameState (Z.of_nat move)).2.
  split_and!.
  - unfold computerMoveTimer. rewrite Hturn, Hmove.
    by destruct (handleCellClick gameState (Z.of_nat move)).
  - destruct Hwf as [Hlen _]. rewrite <- Hlen. by eapply lookup_lt_Some.
  - done.
  - by rewrite handleCellClick_board, Nat2Z.id, HO.
  - rewrite handleCellClick_currentPlayer, HO by done. by case_decide.
  - rewrite handleCellClick_outcome by done. done.
Qed.

Lemma computerMoveTimer_moves_witness :
  ∃ move next toasts,
    computerMoveTimer
      (foldl dispatch initialGameState [ChooseMode computer; CellClick 0])
      (1 # 2) = Some (next, toasts)
    ∧ move < 9
    ∧ board (foldl dispatch initialGameState
               [ChooseMode computer; CellClick 0]) !! move = Some None
    ∧ board next
      = <[move := Some O]>
          (board (foldl dispatch initialGameState
                    [ChooseMode computer; CellClick 0]))
    ∧ currentPlayer next = Some X
    ∧ gameMode next = computer.
Proof.
  apply (computerMoveTimer_moves [ChooseMode computer; CellClick 0] (1 # 2)).
  - reflexivity.
  - split; [discriminate|reflexivity].
Defined.

(** X18. After "New Game" or a mode button, from any state, every cell is
    playable and X opens: the click on any index 0..8 is accepted, writes X
    into the empty board, leaves the game in progress with O to move, keeps
    the score the session had and sends no toast. *)
Theorem first_click_of_a_game (gameState : GameState) (e : Event)
    (index : Z) :
  e = NewGame ∨ (∃ mode, e = ChooseMode mode) →
  (0 ≤ index < 9)%Z →
  handleCellClick (dispatch gameState e) index
  = ({| board := <[Z.to_nat index := Some X]> emptyBoard;
        currentPlayer := Some O;
        gameStatus := playing;
        winner := None;
        gameMode := gameMode (dispatch gameState e);
        score := score gameState |},
     []).
Proof.
  intros He Hindex.
  assert (index = 0 ∨ index = 1 ∨ index = 2 ∨ index = 3 ∨ index = 4
          ∨ index = 5 ∨ index = 6 ∨ index = 7 ∨ index = 8)%Z
    as Hcases by lia.
  destruct He as [->|[mode ->]];
    repeat (destruct Hcases as [-> | Hcases]); try subst index;
    reflexivity.
Qed.

Lemma first_click_of_a_game_witness :
  handleCellClick (dispatch (handleCellClick topRowOpen 2).1 NewGame) 4
  = ({| board := <[4 := Some X]> emptyBoard;
        currentPlayer := Some O;
        gameStatus := playing;
        winner := None;
        gameMode := player;
        score := mkScore 1 0 0 |},
     []).
Proof.
  apply (first_click_of_a_game (handleCellClick topRowOpen 2).1 NewGame 4).
  - by left.
  - lia.
Defined.

(** X19. The board grid and the click handler agree: the grid has one
    button per cell, the button at position [i] shows cell [i] and sends
    index [i], and it is disabled exactly when [handleCellClick] would
    reject that index. *)
Theorem boardButtons_match_guard (gameState : GameState) :
  length (boardButtons gameState) = length (board gameState)
  ∧ ∀ i button,
      boardButtons gameState !! i = Some button →
      clickIndex button = Z.of_nat i
      ∧ board gameState !! i = Some (shown button)
      ∧ disabled button = rejected gameState (clickIndex button).
Proof.
  split; [apply length_imap|].
  intros i button Hbutton. unfold boardButtons in Hbutton.
  rewrite list_lookup_imap in Hbutton.
  destruct (board gameState !! i) as [cell|] eqn:Hcell; [|done].
  injection Hbutton as <-. simpl. split_and!; [done|done|].
  unfold rejected. rewrite item_of_nat, Hcell. f_equal.
  apply bool_decide_ext. split; [intros H [= ->]; by apply H|by intros H ->].
Qed.

Lemma countCells_total (board : Board) :
  countCells (Some X) board + countCells (Some O) board
    + countCells None board
  = length board.
Proof.
  unfold countCells. induction board as [|cell board IH]; [done|].
  rewrite !filter_cons. destruct cell as [[]|];
    repeat case_decide; simplify_eq; simpl; lia.
Qed.

Lemma isBoardFull_no_empty_count (board : Board) :
  isBoardFull board = true → countCells None board = 0.
Proof.
  intros Hfull.
  destruct (availableMoves_shifted board 0) as (_ & _ & <-).
  assert (Hnil : getAvailableMoves board = [])
    by by apply getAvailableMoves_nil, isBoardFull_true.
  unfold getAvailableMoves in Hnil. simpl in *. by rewrite Hnil.
Qed.

(** X20. Every drawn game a session can reach ends on a board with five X
    and four O, with the turn marker on O. *)
Theorem reachable_draw_five_four (events : list Event) :
  let gameState := foldl dispatch initialGameState events in
  gameStatus gameState = draw →
  countCells (Some X) (board gameState) = 5
  ∧ countCells (Some O) (board gameState) = 4
  ∧ currentPlayer gameState = Some O.
Proof.
  intros gameState Hdraw.
  assert (Hwf : wellFormed gameState)
    by (apply foldl_dispatch_invariant;
        [apply dispatch_wellFormed|split; [done|by eexists]]).
  assert (Hcoh : statusCoherent gameState)
    by (apply foldl_dispatch_invariant;
        [apply dispatch_statusCoherent|by vm_compute]).
  assert (Hbal : balanced gameState)
    by (apply foldl_dispatch_invariant;
        [apply dispatch_balanced|left; by vm_compute]).
  unfold statusCoherent in Hcoh. rewrite Hdraw in Hcoh.
  destruct Hcoh as (_ & Hfull & _).
  apply isBoardFull_no_empty_count in Hfull.
  pose proof (countCells_total (board gameState)) as Htotal.
  destruct Hwf as [Hlen _]. rewrite Hlen, Hfull in Htotal.
  destruct Hbal as [[Hturn Hcount]|[Hturn Hcount]]; [lia|].
  split_and!; [lia|lia|done].
Qed.

Lemma reachable_draw_five_four_witness :
  countCells (Some X)
    (board (foldl dispatch initialGameState
              (CellClick <$> [0; 1; 2; 4; 3; 5; 7; 6; 8]%Z))) = 5
  ∧ countCells (Some O)
      (board (foldl dispatch initialGameState
                (CellClick <$> [0; 1; 2; 4; 3; 5; 7; 6; 8]%Z))) = 4
  ∧ currentPlayer
      (foldl dispatch initialGameState
         (CellClick <$> [0; 1; 2; 4; 3; 5; 7; 6; 8]%Z)) = Some O.
Proof.
  apply (reachable_draw_five_four
           (CellClick <$> [0; 1; 2; 4; 3; 5; 7; 6; 8]%Z)).
  vm_compute. reflexivity.
Defined.

(** ** The click handler run from an older render *)

Lemma handleCellClickOn_rejected (gameState prev : GameState) (index : Z) :
  rejected gameState index = true →
  handleCellClickOn gameState index prev = (prev, []).
Proof. intros Hrej. unfold handleCellClickOn. by rewrite Hrej. Qed.

(** The result of an accepted call, with the branches of lines 108-125
    read as functions of the new board. *)
Lemma handleCellClickOn_outcome (gameState prev : GameState) (index : Z) :
  rejected gameState index = false →
  let newBoard : Board :=
    <[Z.to_nat index := currentPlayer gameState]> (board gameState) in
  handleCellClickOn gameState index prev
  = ({| board := newBoard;
        currentPlayer :=
          if decide (currentPlayer gameState = Some X) then Some O
          else Some X;
        gameStatus :=
          match checkWinner newBoard with
          | Some _ => won
          | None => if isBoardFull newBoard then draw else playing
          end;
        winner := checkWinner newBoard;
        gameMode := gameMode prev;
        score :=
          match checkWinner newBoard with
          | Some w => addWin w (score gameState)
          | None => if isBoardFull newBoard then addDraw (score gameState)
                    else score gameState
          end |},
     match checkWinner newBoard with
     | Some w => [wonToast w]
     | None => if isBoardFull newBoard then [drawToast] else []
     end).
Proof.
  intros Hacc newBoard. unfold handleCellClickOn. rewrite Hacc. cbv zeta.
  fold newBoard. destruct (checkWinner newBoard) as [[]|]; [done|done|].
  by destruct (isBoardFull newBoard).
Qed.

Lemma isBoardFull_false (board : Board) :
  isBoardFull board = false ↔ ∃ i, board !! i = Some None.
Proof.
  split; [apply isBoardFull_false_empty_cell|].
  intros [i Hi]. destruct (isBoardFull board) eqn:Hfull; [|done].
  exfalso. by eapply isBoardFull_true.
Qed.

Lemma computerMoveTimer_callback (gameState : GameState) (random : Q) :
  computerToMove gameState = true →
  computerMoveTimer gameState random
  = Some (computerMoveCallback gameState random gameState).
Proof.
  intros Hturn. unfold computerMoveTimer, computerMoveCallback.
  rewrite Hturn. by destruct (getComputerMove _ _).
Qed.

Lemma resetScore_effectDeps (gameState : GameState) :
  effectDeps (resetScore gameState) = effectDeps gameState.
Proof. reflexivity. Qed.

(** C1 fails on the code for a move event of the computer's timer that
    follows a score reset.  The session [scoredSession] is reached by real
    events (X wins a game, the mode is set to computer, X opens on cell 0);
    the effect sets its timer there, and a click on "Reset Score" changes no
    dependency of the effect, so the timer and its callback stay.  When the
    callback then runs on the reset session, its move is accepted, the game
    stays in progress, and the score goes from 0, 0, 0 to 1, 0, 0: the
    counter of X is changed by a move that won nothing, where C1 has no
    counter changed. *)
Theorem stale_timer_move_restores_score :
  foldl dispatch initialGameState
    ((CellClick <$> [0; 3; 1; 4; 2]%Z) ++ [ChooseMode computer; CellClick 0])
  = scoredSession
  ∧ computerToMove scoredSession = true
  ∧ effectDeps (resetScore scoredSession) = effectDeps scoredSession
  ∧ score (resetScore scoredSession) = mkScore 0 0 0
  ∧ ∀ random,
      let next :=
        (computerMoveCallback scoredSession random
           (resetScore scoredSession)).1 in
      board next = <[4 := Some O]> (board (resetScore scoredSession))
      ∧ gameStatus next = playing
      ∧ winner next = None
      ∧ score next = mkScore 1 0 0
      ∧ score next ≠ score (resetScore scoredSession).
Proof.
  split_and!; [vm_compute; reflexivity..|].
  intros random. split_and!; [reflexivity..|discriminate].
Qed.

(** X21. For every call of the click handler that passes its guard (the
    render it was created in is in progress and the cell is empty there),
    whatever state the update is applied to: the mark to move is written at
    the cell of that render's board and no other cell changes; if the new
    board has a line held by one mark, the status is won, the winner is a
    mark holding such a line and the score is that render's score with the
    winner's counter one higher; otherwise, if no cell of the new board is
    empty, the status is draw and the score is that render's score with the
    draw counter one higher; otherwise the status is playing and the score
    is that render's score; the game mode is that of the state updated. *)
Theorem handleCellClickOn_accepted (gameState prev : GameState)
    (index : Z) :
  gameStatus gameState = playing →
  item (board gameState) index = Some None →
  let newBoard : Board :=
    <[Z.to_nat index := currentPlayer gameState]> (board gameState) in
  let next := (handleCellClickOn gameState index prev).1 in
  board next = newBoard
  ∧ item (board next) index = Some (currentPlayer gameState)
  ∧ (∀ j, j ≠ Z.to_nat index → board next !! j = board gameState !! j)
  ∧ gameMode next = gameMode prev
  ∧ ((∃ m t, line t ∧ owns newBoard m t) →
     gameStatus next = won
     ∧ ∃ w, winner next = Some w
            ∧ (∃ t, line t ∧ owns newBoard w t)
            ∧ score next = addWin w (score gameState))
  ∧ ((¬ ∃ m t, line t ∧ owns newBoard m t) →
     (∀ j, newBoard !! j ≠ Some None) →
     gameStatus next = draw ∧ winner next = None
     ∧ score next = addDraw (score gameState))
  ∧ ((¬ ∃ m t, line t ∧ owns newBoard m t) →
     (∃ j, newBoard !! j = Some None) →
     gameStatus next = playing ∧ winner next = None
     ∧ score next = score gameState).
Proof.
  intros Hplaying Hempty newBoard next.
  assert (Hacc : rejected gameState index = false)
    by by apply rejected_false.
  subst next. rewrite handleCellClickOn_outcome by done. simpl.
  fold newBoard.
  assert (Hnowin : (¬ ∃ m t, line t ∧ owns newBoard m t) →
                   checkWinner newBoard = None).
  { intros Hnone. apply checkWinner_None_lines.
    intros t m Ht Hown. apply Hnone. eauto. }
  split_and!.
  - done.
  - apply item_Some in Hempty as [Hpos Hcell].
    unfold item. rewrite decide_True by done.
    apply list_lookup_insert_eq. by eapply lookup_lt_Some.
  - intros j Hj. by apply list_lookup_insert_ne.
  - done.
  - intros [w Hw]%checkWinner_is_Some_lines. rewrite Hw.
    split; [done|]. exists w.
    split_and!; [done|by apply checkWinner_Some_line|done].
  - intros Hnone Hfull. rewrite (Hnowin Hnone).
    apply isBoardFull_true in Hfull. by rewrite Hfull.
  - intros Hnone Hcell. rewrite (Hnowin Hnone).
    apply isBoardFull_false in Hcell. by rewrite Hcell.
Qed.

Lemma handleCellClickOn_accepted_witness :
  gameStatus (handleCellClickOn scoredSession 4
                (resetScore scoredSession)).1 = playing
  ∧ winner (handleCellClickOn scoredSession 4
              (resetScore scoredSession)).1 = None
  ∧ score (handleCellClickOn scoredSession 4
             (resetScore scoredSession)).1 = score scoredSession.
Proof.
  destruct (handleCellClickOn_accepted scoredSession
              (resetScore scoredSession) 4 eq_refl eq_refl)
    as (_ & _ & _ & _ & _ & _ & Hplaying).
  apply Hplaying.
  - intros (m & t & Ht & Hown).
    apply winningCombinations_lines in Ht. unfold winningCombinations in Ht.
    repeat (apply elem_of_cons in Ht as [-> | Ht];
            [destruct Hown as (H0 & H1 & H2); destruct m; discriminate|]).
    by apply elem_of_nil in Ht.
  - exists 1. reflexivity.
Defined.

(** X12. A rejected call of the click handler leaves the score of the
    current state as it is.  An accepted call writes a score computed from
    the render the handler was created in: no counter is below that render's
    counter, and the three counters together are that render's sum plus one
    when the resulting status is won or draw, and that render's sum itself
    when the game goes on. *)
Theorem handleCellClickOn_score_accounting (gameState prev : GameState)
    (index : Z) :
  let next := (handleCellClickOn gameState index prev).1 in
  if rejected gameState index then score next = score prev
  else
    x (score gameState) ≤ x (score next)
    ∧ o (score gameState) ≤ o (score next)
    ∧ draws (score gameState) ≤ draws (score next)
    ∧ gamesCounted (score next)
      = gamesCounted (score gameState)
        + (if bool_decide (gameStatus next ≠ playing) then 1 else 0).
Proof.
  intros next. subst next. unfold gamesCounted.
  destruct (rejected gameState index) eqn:Hrej.
  - by rewrite handleCellClickOn_rejected.
  - rewrite handleCellClickOn_outcome by done. simpl.
    destruct (checkWinner _) as [[]|]; simpl; [lia|lia|].
    destruct (isBoardFull _); simpl; lia.
Qed.

(** X16. The move of the "try to win" tier wins.  When, in the render the
    handler belongs to, O is to move in a game in progress on a board
    without a winner and [tryToWin] returns an index, the click on that
    index passes the guard and, whatever state the update is applied to,
    ends the game as won by O on that render's board with O at the index;
    the score written is that render's score with score.o one higher and
    the other counters as in that render. *)
Theorem tryToWin_move_wins (gameState prev : GameState) (move : nat) :
  gameStatus gameState = playing →
  currentPlayer gameState = Some O →
  checkWinner (board gameState) = None →
  tryToWin (board gameState) = Some move →
  let next := (handleCellClickOn gameState (Z.of_nat move) prev).1 in
  board next = <[move := Some O]> (board gameState)
  ∧ gameStatus next = won ∧ winner next = Some O
  ∧ score next = addWin O (score gameState).
Proof.
  intros Hplaying Hturn Hnone Hmove next.
  apply completing_from_Some in Hmove as (t & Ht & Hcomp).
  assert (Hnull : board gameState !! move = Some None) by apply Hcomp.
  assert (Hacc : rejected gameState (Z.of_nat move) = false).
  { apply rejected_false. split; [|done].
    unfold item. rewrite decide_True by lia. by rewrite Nat2Z.id. }
  subst next. rewrite handleCellClickOn_outcome by done. simpl.
  rewrite Nat2Z.id, Hturn.
  assert (Hw : checkWinner (<[move := Some O]> (board gameState)) = Some O).
  { destruct (checkWinner (<[move := Some O]> (board gameState)))
      as [w|] eqn:Hw.
    - f_equal. by eapply checkWinner_insert_mover.
    - exfalso. eapply checkWinner_None_lines; [exact Hw| |].
      + by apply winningCombinations_lines.
      + by apply completable_insert_owns. }
  by rewrite Hw.
Qed.

Lemma tryToWin_move_wins_witness :
  score
    (handleCellClickOn
       {| board := [Some X; Some X; None; Some O; Some O; None;
                    Some X; None; None];
          currentPlayer := Some O; gameStatus := playing; winner := None;
          gameMode := computer; score := mkScore 2 1 0 |} 5
       {| board := [Some X; Some X; None; Some O; Some O; None;
                    Some X; None; None];
          currentPlayer := Some O; gameStatus := playing; winner := None;
          gameMode := computer; score := mkScore 0 0 0 |}).1
  = mkScore 2 2 0.
Proof.
  apply (tryToWin_move_wins
           {| board := [Some X; Some X; None; Some O; Some O; None;
                        Some X; None; None];
              currentPlayer := Some O; gameStatus := playing;
              winner := None; gameMode := computer;
              score := mkScore 2 1 0 |}
           {| board := [Some X; Some X; None; Some O; Some O; None;
                        Some X; None; None];
              currentPlayer := Some O; gameStatus := playing;
              winner := None; gameMode := computer;
              score := mkScore 0 0 0 |} 5); reflexivity.
Defined.

End TicTacToe.
